(** * TenantDropdown: a verification development

    Source: modules/web/web-app/components/layouts/shared/LayoutHeader/TenantDropdown.tsx

    The component is a React function component.  It is embedded here as a
    computation in a small render monad that threads

    - the JavaScript heap of tenant arrays (the array held by the query cache
      is shared with the component, and [Array.prototype.sort] works in place),
    - the hook cells React keeps for the component ([useState], [useEffect]),
    - the effects scheduled for the commit.

    The value it returns is the element tree of its JSX: what the component
    hands to the UI toolkit.  What the toolkit then shows of it (when the
    popover content or [CommandEmpty] is visible) is decided by the toolkit.

    The first part holds the definitions: the data, the operations of the
    engine and of React the component calls, the component, the steps of a
    mounted component, and the inputs the theorems are run on.  The second
    part holds the theorems. *)

From Stdlib Require Import ZArith Lia.
From stdpp Require Import base option list sorting gmap strings.

Local Open Scope Z_scope.

(** ** Tenant records *)

(** A tenant message as the component reads it: [tenant.id], [tenant.name]
    and [tenant.slug]. *)
Record Tenant := mkTenant {
  id : string;
  name : string;
  slug : string;
}.

(** ** String collation *)

(** [String.prototype.localeCompare] is provided by the JavaScript engine and
    depends on the host locale.  ECMAScript requires it to be a consistent
    comparator that defines a total ordering of all strings; the two laws
    below are that requirement (a negative, zero or positive number, with the
    sign flipping when the arguments are swapped, and transitivity). *)
Class Collator := {
  localeCompare : string -> string -> Z;
  localeCompare_antisym a b :
    Z.sgn (localeCompare b a) = - Z.sgn (localeCompare a b);
  localeCompare_trans a b c :
    localeCompare a b <= 0 -> localeCompare b c <= 0 -> localeCompare a c <= 0;
}.

(** ** [Array.prototype.sort] on the contents of an array *)

Section Sort.
Context {A : Type} (cmp : A -> A -> Z).

(** [a] is placed before the first element it does not compare after, so
    elements that compare equal keep their relative order. *)
Fixpoint sort_insert (a : A) (l : list A) : list A :=
  match l with
  | [] => [a]
  | b :: l' => if cmp a b <=? 0 then a :: b :: l' else b :: sort_insert a l'
  end.

(** The contents of an array after [sort(cmp)]: the sort is stable
    (ECMAScript 2019), and for a consistent comparator every stable sort
    yields this same list. *)
Definition sorted_by (l : list A) : list A := foldr sort_insert [] l.

(** [a] does not come after [b]. *)
Definition cmp_le (a b : A) : Prop := cmp a b <= 0.

(** [a] and [b] compare equal. *)
Definition cmp_eqb (a b : A) : bool := cmp a b =? 0.

(** A consistent comparator. *)
Record Consistent : Prop := {
  cmp_antisym a b : Z.sgn (cmp b a) = - Z.sgn (cmp a b);
  cmp_trans a b c : cmp a b <= 0 -> cmp b c <= 0 -> cmp a c <= 0;
}.

End Sort.

(** ** Element trees *)

(** The value of a JSX attribute: a string, a boolean, or the setter of a
    [useState] cell (the setter is identified by the cell it writes). *)
Inductive PropValue :=
| PStr (s : string)
| PBool (b : bool)
| PSetState (cell : nat).

(** A React element: a text node, or an element with its type, its [key],
    its attributes and its children. *)
#[warnings="-register-all"]
Inductive Element :=
| Text (s : string)
| Elem (tag : string) (key : option string)
       (props : list (string * PropValue)) (children : list Element).

(** A JSX expression child of type [string | undefined]: React renders
    nothing for [undefined]. *)
Definition jsx_expr (v : option string) : list Element :=
  match v with
  | Some s => [Text s]
  | None => []
  end.

Definition tag_of (e : Element) : option string :=
  match e with
  | Text _ => None
  | Elem tag _ _ _ => Some tag
  end.

Definition key_of (e : Element) : option string :=
  match e with
  | Text _ => None
  | Elem _ key _ _ => key
  end.

Definition children_of (e : Element) : list Element :=
  match e with
  | Text _ => []
  | Elem _ _ _ children => children
  end.

(** The first value given for attribute [p] in a list of attributes. *)
Fixpoint attribute (p : string) (props : list (string * PropValue)) : option PropValue :=
  match props with
  | [] => None
  | (k, v) :: rest => if String.eqb k p then Some v else attribute p rest
  end.

(** The value of attribute [p], if the element has it. *)
Definition prop (p : string) (e : Element) : option PropValue :=
  match e with
  | Text _ => None
  | Elem _ _ props _ => attribute p props
  end.

(** All elements of type [t] in the tree, in document order. *)
Fixpoint elements_by_tag (t : string) (e : Element) : list Element :=
  match e with
  | Text _ => []
  | Elem tag _ _ children =>
      (if String.eqb tag t then [e] else [])
        ++ flat_map (elements_by_tag t) children
  end.

(** All text nodes of the tree, in document order. *)
Fixpoint texts (e : Element) : list string :=
  match e with
  | Text s => [s]
  | Elem _ _ _ children => flat_map texts children
  end.

(** The text of the tree. *)
Definition textContent (e : Element) : string :=
  String.concat "" (texts e).

(** ** The JavaScript heap and the ambient context *)

(** Addresses of arrays. *)
Abbreviation loc := nat (only parsing).

(** The arrays of tenant messages that live in the JavaScript heap, by
    address.  The tenant messages themselves are never written by the
    component, so an array holds them by value. *)
Abbreviation Heap := (gmap nat (list Tenant)) (only parsing).

(** A JavaScript value as [Object.is] sees it: [undefined], or the identity
    of an object. *)
Inductive JsValue :=
| Undefined
| ObjectRef (r : nat).

#[global] Instance JsValue_eq_dec : EqDecision JsValue.
Proof. solve_decision. Defined.

Definition Object_is (a b : JsValue) : bool := bool_decide (a = b).

(** The active tenant as an object: its identity and its fields. *)
Record TenantObject := {
  ref : nat;
  fields : Tenant;
}.

(** What [useTenant()] returns: [{ tenant }], where [tenant] may be
    [undefined]. *)
Record TenantContext := {
  tenant : option TenantObject;
}.

Definition js_value (t : option TenantObject) : JsValue :=
  match t with
  | Some o => ObjectRef (ref o)
  | None => Undefined
  end.

(** The [ListTenantsResponse] message: [tenants] is (the address of) its
    array of tenant messages. *)
Record ListTenantsResponse := {
  tenants : loc;
}.

(** What [useQuery] returns, as far as the component reads it: [data] is
    [undefined] until a fetch has succeeded. *)
Record QueryResult := {
  data : option ListTenantsResponse;
}.

(** The remote methods the component queries. *)
Variant Method := listTenants.

(** What the hooks of the surrounding application hand to one render.
    [useQuery], [useTenant] and [useOrganizationSlug] are not part of the
    component: what they return is a parameter of each render.  The
    organization slug is the string the template literals interpolate. *)
Record Env := {
  queries : Method -> QueryResult;
  tenant_context : TenantContext;
  organization_slug : string;
}.

(** ** Hook cells and the render monad *)

(** A state update: the setter of cell [cell] called with [value]. *)
Inductive Action :=
| SetState (cell : nat) (value : bool).

(** The cells React keeps for the component, one per hook call, in call
    order. *)
Inductive Hook :=
| StateHook (value : bool)
| EffectHook (deps : list JsValue).

(** The state of one render pass: the heap; the cells of the previous render
    that are still to be consumed ([None] while mounting); the cells of this
    render; the effects to run once the render is committed. *)
Record RenderState := {
  rs_heap : Heap;
  rs_prev : option (list Hook);
  rs_next : list Hook;
  rs_effects : list Action;
}.

(** A render computation reads the ambient context, updates the render
    state, and either returns or throws ([None]: the errors React raises when
    the hooks are not called as in the previous render, and the use of an
    address that holds no array, which no JavaScript reference does). *)
Definition Render (A : Type) : Type := Env -> RenderState -> option (A * RenderState).

#[global] Instance Render_ret : MRet Render :=
  fun A a _ s => Some (a, s).

#[global] Instance Render_bind : MBind Render :=
  fun A B k m env s =>
    match m env s with
    | Some (a, s') => k a env s'
    | None => None
    end.

(** The hooks of the surrounding application read the ambient context. *)
Definition useQuery (m : Method) : Render QueryResult :=
  fun env s => Some (queries env m, s).

Definition useTenant : Render TenantContext :=
  fun env s => Some (tenant_context env, s).

Definition useOrganizationSlug : Render string :=
  fun env s => Some (organization_slug env, s).

(** [useState(initial)]: while mounting, a new cell holding [initial]; on an
    update, the next cell of the previous render, which must be a state cell.
    Returns the current value and the setter of the cell. *)
Definition useState (initial : bool) : Render (bool * nat) :=
  fun _ s =>
    let cell := length (rs_next s) in
    match rs_prev s with
    | None =>
        Some ((initial, cell),
              {| rs_heap := rs_heap s; rs_prev := None;
                 rs_next := rs_next s ++ [StateHook initial];
                 rs_effects := rs_effects s |})
    | Some (StateHook v :: rest) =>
        Some ((v, cell),
              {| rs_heap := rs_heap s; rs_prev := Some rest;
                 rs_next := rs_next s ++ [StateHook v];
                 rs_effects := rs_effects s |})
    | Some _ => None
    end.

(** React's comparison of dependency arrays. *)
Fixpoint areHookInputsEqual (next prev : list JsValue) : bool :=
  match next, prev with
  | a :: next', b :: prev' => Object_is a b && areHookInputsEqual next' prev'
  | _, _ => true
  end.

(** [useEffect(effect, deps)]: the effect is scheduled while mounting, and on
    an update when a dependency is not [Object.is] its previous value.  The
    effect is given by the state updates it performs. *)
Definition useEffect (effect : list Action) (deps : list JsValue) : Render unit :=
  fun _ s =>
    match rs_prev s with
    | None =>
        Some (tt,
              {| rs_heap := rs_heap s; rs_prev := None;
                 rs_next := rs_next s ++ [EffectHook deps];
                 rs_effects := rs_effects s ++ effect |})
    | Some (EffectHook prev_deps :: rest) =>
        Some (tt,
              {| rs_heap := rs_heap s; rs_prev := Some rest;
                 rs_next := rs_next s ++ [EffectHook deps];
                 rs_effects := rs_effects s ++
                   (if areHookInputsEqual deps prev_deps then [] else effect) |})
    | Some _ => None
    end.

(** The array literal: a new array at an unused address. *)
Definition Array_new (l : list Tenant) : Render loc :=
  fun _ s =>
    let a := fresh (dom (rs_heap s)) in
    Some (a,
          {| rs_heap := <[a := l]> (rs_heap s); rs_prev := rs_prev s;
             rs_next := rs_next s; rs_effects := rs_effects s |}).

(** [array.sort(cmp)] sorts the array in place and returns the same array. *)
Definition Array_sort (cmp : Tenant -> Tenant -> Z) (a : loc) : Render loc :=
  fun _ s =>
    match rs_heap s !! a with
    | Some l =>
        Some (a,
              {| rs_heap := <[a := sorted_by cmp l]> (rs_heap s); rs_prev := rs_prev s;
                 rs_next := rs_next s; rs_effects := rs_effects s |})
    | None => None
    end.

(** [array.map(f)] reads the array and returns the results. *)
Definition Array_map {B : Type} (f : Tenant -> B) (a : loc) : Render (list B) :=
  fun _ s =>
    match rs_heap s !! a with
    | Some l => Some (f <$> l, s)
    | None => None
    end.

(** ** The component *)

Section Component.
Context {collator : Collator}.

(** The comparator of the source: [(a, b) => a.name.localeCompare(b.name)]. *)
Definition by_name (a b : Tenant) : Z := localeCompare (name a) (name b).

(** The row of one tenant: the callback of [.map]. *)
Definition tenant_row (org : string) (tenant : Tenant) : Element :=
  Elem "Link" (Some (id tenant)) [("to", PStr ("/" +:+ org +:+ "/" +:+ slug tenant))]
    [Elem "CommandItem" (Some (id tenant)) [] [Text (name tenant)]].

(** The link of the item below the list. *)
Definition new_tenant_link (org : string) : Element :=
  Elem "Link" None
    [("to", PStr ("/" +:+ org +:+ "/tenants/new")); ("className", PStr "w-full")]
    [Elem "Button" None
       [("size", PStr "content"); ("variant", PStr "ghost"); ("hasIcon", PBool true)]
       [Elem "PlusIcon" None [("size", PStr "12")] []; Text " New tenant"]].

(** The item below the list. *)
Definition new_tenant_item (org : string) : Element :=
  Elem "CommandItem" None [] [new_tenant_link org].

(** The button that opens the popover. *)
Definition trigger (tenant : option TenantObject) : Element :=
  Elem "PopoverTrigger" None
    [("className",
      PStr "h-9 px-4 py-2 rounded-full border border-border bg-background dark:border-0 dark:bg-secondary hover:bg-accent dark:hover:bg-accent ")]
    [Elem "div" None [("className", PStr "flex flex-row space-x-2 items-center ")]
       [Elem "span" None [("className", PStr "text-xs text-muted-foreground")]
          [Text "Tenant: "];
        Elem "span" None [("className", PStr " rounded-full p-1 bg-cyan-600")] [];
        Elem "span" None [] (jsx_expr (name ∘ fields <$> tenant));
        Elem "ChevronsUpDownIcon" None [("size", PStr "10")] []]].

(** The JSX the component returns. *)
Definition view (open : bool) (setOpen : nat) (tenant : option TenantObject)
    (org : string) (rows : list Element) : Element :=
  Elem "Popover" None [("open", PBool open); ("onOpenChange", PSetState setOpen)]
    [trigger tenant;
     Elem "PopoverContent" None [("className", PStr "w-[200px] p-0")]
       [Elem "Command" None []
          [Elem "CommandEmpty" None [] [Text "No tenant found."];
           Elem "CommandList" None [] rows;
           new_tenant_item org]]].

Definition TenantDropdown : Render Element :=
  response ← useQuery listTenants;
  tenants ← match data response with
            | Some d => mret (tenants d)
            | None => Array_new []
            end;
  ctx ← useTenant;
  let tenant := tenant ctx in
  org ← useOrganizationSlug;
  '(open, setOpen) ← useState false;
  useEffect [SetState setOpen false] [js_value tenant];;
  sorted ← Array_sort by_name tenants;
  rows ← Array_map (tenant_row org) sorted;
  mret (view open setOpen tenant org rows).

(** ** The mounted component *)

(** The component as React holds it: its hook cells once it is mounted, the
    heap it shares with the query cache, and the tree of its last render. *)
Record World := {
  fiber : option (list Hook);
  heap : Heap;
  output : option Element;
}.

(** A state update writes the state cell it addresses. *)
Definition dispatch (a : Action) (hooks : list Hook) : list Hook :=
  match a with
  | SetState cell v =>
      match hooks !! cell with
      | Some (StateHook _) => <[cell := StateHook v]> hooks
      | _ => hooks
      end
  end.

(** One render of the component followed by its commit: the component runs
    against the cells of the previous render, its cells and its tree replace
    the old ones, and the scheduled effects run.  React throws when a render
    leaves cells of the previous render unused. *)
Definition render (env : Env) (w : World) : option World :=
  match TenantDropdown env
          {| rs_heap := heap w; rs_prev := fiber w; rs_next := []; rs_effects := [] |} with
  | Some (tree, s) =>
      match rs_prev s with
      | Some (_ :: _) => None
      | _ =>
          Some {| fiber := Some (foldl (fun hooks a => dispatch a hooks)
                                       (rs_next s) (rs_effects s));
                  heap := rs_heap s;
                  output := Some tree |}
      end
  | None => None
  end.

(** What happens to the component: it is rendered (mounted when it is not
    yet; a render that a state update asks for is a render with the same
    [env]); the popover calls the [onOpenChange] attribute of the last tree;
    it is unmounted.  And around it: the query layer receives a response and
    keeps its array, at an address of its own, for the renders to come. *)
Inductive Event :=
| Rendered (env : Env)
| OpenChange (b : bool)
| Unmounted
| Fetched (l : list Tenant).

Definition step (ev : Event) (w : World) : option World :=
  match ev with
  | Rendered env => render env w
  | OpenChange b =>
      match fiber w, output w with
      | Some hooks, Some tree =>
          match prop "onOpenChange" tree with
          | Some (PSetState cell) =>
              Some {| fiber := Some (dispatch (SetState cell b) hooks);
                      heap := heap w;
                      output := output w |}
          | _ => None
          end
      | _, _ => None
      end
  | Unmounted =>
      Some {| fiber := None; heap := heap w; output := None |}
  | Fetched l =>
      Some {| fiber := fiber w;
              heap := <[fresh (dom (heap w)) := l]> (heap w);
              output := output w |}
  end.

(** The component before it is mounted, on any heap. *)
Definition initial (h : Heap) : World :=
  {| fiber := None; heap := h; output := None |}.

Inductive reachable : World -> Prop :=
| reachable_initial h : reachable (initial h)
| reachable_step ev w w' : reachable w -> step ev w = Some w' -> reachable w'.

(** Several steps in a row. *)
Fixpoint run (evs : list Event) (w : World) : option World :=
  match evs with
  | [] => Some w
  | ev :: evs' =>
      match step ev w with
      | Some w' => run evs' w'
      | None => None
      end
  end.

(** What can happen between two consecutive renders of a mounted component:
    the popover asks to be opened or closed, the query layer receives a
    response. *)
Definition between_renders (ev : Event) : Prop :=
  match ev with
  | OpenChange _ | Fetched _ => True
  | Rendered _ | Unmounted => False
  end.

(** ** What is observed *)

(** The values of the state cells, in hook order. *)
Definition state_cells (hooks : list Hook) : list bool :=
  omap (fun h => match h with StateHook v => Some v | EffectHook _ => None end) hooks.

(** The popover-visibility flag of a mounted component: its state cell. *)
Definition open_flag (w : World) : option bool :=
  hooks ← fiber w; head (state_cells hooks).

(** The tenant value of the previous render, as React remembers it in the
    dependency array of the effect. *)
Definition previous_tenant (w : World) : option JsValue :=
  hooks ← fiber w;
  deps ← head (omap (fun h => match h with EffectHook d => Some d | StateHook _ => None end) hooks);
  head deps.

(** The rows of the tenant list: the children of [CommandList]. *)
Definition tenant_rows (tree : Element) : list Element :=
  flat_map children_of (elements_by_tag "CommandList" tree).

(** The array the query currently holds, if it has data. *)
Definition fetched (env : Env) (h : Heap) : option (list Tenant) :=
  d ← data (queries env listTenants); h !! tenants d.

(** The tenant list the component works on: the fetched array, or the empty
    array when the query has no data. *)
Definition tenant_list (env : Env) (h : Heap) : option (list Tenant) :=
  match data (queries env listTenants) with
  | Some d => h !! tenants d
  | None => Some []
  end.

(** A link that wraps the button labelled New tenant. *)
Definition is_new_tenant_link (e : Element) : bool :=
  existsb (fun b => String.eqb (textContent b) " New tenant")
          (elements_by_tag "Button" e).

(** The [Command] of cmdk keeps count of the items mounted inside it; the
    [CommandItem] of the UI kit is such an item, wherever it stands below
    [Command].  There is no search input here, so every item counts. *)
Definition command_item_count (tree : Element) : nat :=
  length (flat_map (elements_by_tag "CommandItem") (elements_by_tag "Command" tree)).

(** [CommandEmpty] shows its children only while that count is zero. *)
Definition command_empty_shown (tree : Element) : bool :=
  Nat.eqb (command_item_count tree) 0.

(** ** What one render computes *)

(** The array the component sorts: the array of the response, or a new one. *)
Definition tenants_array (env : Env) (h : Heap) : loc :=
  match data (queries env listTenants) with
  | Some d => tenants d
  | None => fresh (dom h)
  end.

(** The tree of a render that sees the flag [open] and the list [l]. *)
Definition rendered_tree (env : Env) (open : bool) (l : list Tenant) : Element :=
  view open 0 (tenant (tenant_context env)) (organization_slug env)
       (tenant_row (organization_slug env) <$> sorted_by by_name l).

(** The cells of a mounted component. *)
Definition cells (open : bool) (deps : list JsValue) : list Hook :=
  [StateHook open; EffectHook deps].

(** The flag a render reads: the state cell, or the initial value while
    mounting. *)
Definition flag_seen (w : World) : bool := default false (open_flag w).

(** The flag once the effects of the render have run. *)
Definition flag_after (env : Env) (w : World) : bool :=
  match previous_tenant w with
  | Some v =>
      if Object_is (js_value (tenant (tenant_context env))) v then flag_seen w else false
  | None => false
  end.

(** What holds of every world the component can reach: once mounted it has
    its two cells, and the [onOpenChange] attribute of its tree is the setter
    of the state cell. *)
Definition well_formed (w : World) : Prop :=
  match fiber w with
  | None => True
  | Some hooks =>
      (exists open v, hooks = cells open [v]) /\
      (exists tree, output w = Some tree /\ prop "onOpenChange" tree = Some (PSetState 0))
  end.

End Component.

(** ** Concrete inputs *)

(** Comparison by code units, the order of the C locale. *)
Definition ordinal_compare (a b : string) : Z :=
  match String.compare a b with
  | Lt => -1
  | Eq => 0
  | Gt => 1
  end.

(** It is a collator. *)
Definition ordinal_collator : Collator.
Proof.
  assert (forall a b c : string,
             String.compare a b <> Gt -> String.compare b c <> Gt ->
             String.compare a c <> Gt) as Htrans.
  { induction a as [|x a IH]; intros [|y b] [|z c]; simpl; try done.
    destruct (Ascii.compare x y) eqn:Hxy; [| |done].
    - apply Ascii.compare_eq_iff in Hxy as ->.
      destruct (Ascii.compare y z); [apply IH|done|done].
    - destruct (Ascii.compare y z) eqn:Hyz; [| |done].
      + apply Ascii.compare_eq_iff in Hyz as ->. by rewrite Hxy.
      + intros _ _. unfold Ascii.compare in Hxy, Hyz |- *.
        apply N.compare_lt_iff in Hxy. apply N.compare_lt_iff in Hyz.
        by rewrite (proj2 (N.compare_lt_iff _ _) (N.lt_trans _ _ _ Hxy Hyz)). }
  refine {| localeCompare := ordinal_compare |}; unfold ordinal_compare.
  - intros a b. rewrite (String.compare_antisym a b).
    by destruct (String.compare b a).
  - intros a b c Hab Hbc. specialize (Htrans a b c).
    destruct (String.compare a b), (String.compare b c), (String.compare a c);
      try lia; exfalso; by apply Htrans.
Defined.

Definition acme : Tenant := {| id := "t-1"; name := "acme"; slug := "acme" |}.
Definition zeta : Tenant := {| id := "t-2"; name := "zeta"; slug := "zeta-prod" |}.

(** The query holds [zeta; acme] at address 7; the active tenant is zeta. *)
Definition heap0 : gmap nat (list Tenant) := {[ 7%nat := [zeta; acme] ]}.

Definition env0 : Env :=
  {| queries := fun _ => {| data := Some {| tenants := 7%nat |} |};
     tenant_context := {| tenant := Some {| ref := 1%nat; fields := zeta |} |};
     organization_slug := "org" |}.

(** The same query, after the user has switched to acme. *)
Definition env_switched : Env :=
  {| queries := queries env0;
     tenant_context := {| tenant := Some {| ref := 2%nat; fields := acme |} |};
     organization_slug := "org" |}.

(** A query without data, and no active tenant. *)
Definition env_no_data : Env :=
  {| queries := fun _ => {| data := None |};
     tenant_context := {| tenant := None |};
     organization_slug := "org" |}.

Definition heap_sorted : gmap nat (list Tenant) := {[ 7%nat := [acme; zeta] ]}.

(** The component after its first render in [env0] on [heap0]. *)
Definition world_mounted : World :=
  {| fiber := Some (cells false [ObjectRef 1]);
     heap := heap_sorted;
     output := Some (@rendered_tree ordinal_collator env0 false [zeta; acme]) |}.

(** The same component once the user has opened the popover. *)
Definition world_open : World :=
  {| fiber := Some (cells true [ObjectRef 1]);
     heap := heap_sorted;
     output := Some (@rendered_tree ordinal_collator env0 false [zeta; acme]) |}.


(** * Theorems *)

(** ** Facts about the sort *)

Section SortFacts.
Context {A : Type} (cmp : A -> A -> Z).

Lemma sort_insert_Permutation (a : A) (l : list A) :
  sort_insert cmp a l ≡ₚ a :: l.
Proof.
  induction l as [|b l IH]; simpl; [done|].
  destruct (cmp a b <=? 0); [done|].
  rewrite IH. apply Permutation_swap.
Qed.

Lemma sorted_by_Permutation (l : list A) : sorted_by cmp l ≡ₚ l.
Proof.
  induction l as [|a l IH]; simpl; [done|].
  rewrite sort_insert_Permutation. by f_equiv.
Qed.

Lemma sorted_by_length (l : list A) : length (sorted_by cmp l) = length l.
Proof. apply Permutation_length, sorted_by_Permutation. Qed.

Lemma sorted_by_elem_of (a : A) (l : list A) : a ∈ sorted_by cmp l <-> a ∈ l.
Proof. by rewrite sorted_by_Permutation. Qed.

Context (Hcmp : Consistent cmp).

Lemma cmp_refl (a : A) : cmp a a = 0.
Proof. pose proof (cmp_antisym cmp Hcmp a a). lia. Qed.

Lemma cmp_total (a b : A) : cmp a b <= 0 \/ cmp b a <= 0.
Proof. pose proof (cmp_antisym cmp Hcmp a b). lia. Qed.

Lemma cmp_gt_le (a b : A) : ~ cmp a b <= 0 -> cmp b a <= 0.
Proof. pose proof (cmp_antisym cmp Hcmp a b). lia. Qed.

Lemma cmp_lt_not_le (a b : A) : cmp a b < 0 -> ~ cmp b a <= 0.
Proof. pose proof (cmp_antisym cmp Hcmp a b). lia. Qed.

Lemma sort_insert_StronglySorted (a : A) (l : list A) :
  StronglySorted (cmp_le cmp) l -> StronglySorted (cmp_le cmp) (sort_insert cmp a l).
Proof.
  induction 1 as [|b l Hl IH Hb]; simpl.
  - repeat constructor.
  - destruct (Z.leb_spec (cmp a b) 0) as [Hab|Hab].
    + constructor; [by constructor|].
      constructor; [done|].
      eapply Forall_impl; [exact Hb|].
      intros c Hbc. by eapply (cmp_trans cmp Hcmp a b c).
    + constructor; [done|].
      rewrite sort_insert_Permutation. constructor; [|done].
      apply cmp_gt_le. unfold cmp_le in *. lia.
Qed.

Lemma sorted_by_StronglySorted (l : list A) :
  StronglySorted (cmp_le cmp) (sorted_by cmp l).
Proof.
  induction l as [|a l IH]; simpl; [constructor|].
  by apply sort_insert_StronglySorted.
Qed.

(** In a strongly sorted list an element that compares strictly before
    another one stands at a smaller index. *)
Lemma StronglySorted_lt_index (l : list A) (i j : nat) (a b : A) :
  StronglySorted (cmp_le cmp) l ->
  l !! i = Some a -> l !! j = Some b -> cmp a b < 0 -> (i < j)%nat.
Proof.
  intros Hl Hi Hj Hab.
  destruct (decide (i < j)%nat) as [|Hge]; [done|exfalso].
  destruct (decide (i = j)) as [->|Hne].
  - assert (a = b) as -> by congruence.
    rewrite cmp_refl in Hab. lia.
  - assert (j < i)%nat as Hji by lia.
    apply (cmp_lt_not_le a b Hab).
    revert i j Hi Hj Hji Hge Hne.
    induction Hl as [|c l Hl IH Hc]; intros i j Hi Hj Hji _ _; [done|].
    destruct j as [|j], i as [|i]; simpl in *; try lia.
    + injection Hj as ->.
      rewrite Forall_forall in Hc. apply Hc.
      by eapply list_elem_of_lookup_2.
    + apply (IH i j); [done|done|lia|lia|lia].
Qed.

(** The sort is stable: the elements that compare equal to [a] keep their
    order. *)
Lemma sort_insert_stable (a x : A) (l : list A) :
  List.filter (cmp_eqb cmp a) (sort_insert cmp x l)
  = List.filter (cmp_eqb cmp a) (x :: l).
Proof.
  induction l as [|y l IH]; [done|].
  cbn [sort_insert]. destruct (Z.leb_spec (cmp x y) 0) as [Hxy|Hxy]; [done|].
  cbn [List.filter] in *. rewrite IH.
  destruct (cmp_eqb cmp a y) eqn:Hy, (cmp_eqb cmp a x) eqn:Hx; try done.
  exfalso. unfold cmp_eqb in *.
  apply Z.eqb_eq in Hy, Hx.
  pose proof (cmp_antisym cmp Hcmp a x).
  pose proof (cmp_trans cmp Hcmp x a y). lia.
Qed.

Lemma sorted_by_stable (a : A) (l : list A) :
  List.filter (cmp_eqb cmp a) (sorted_by cmp l) = List.filter (cmp_eqb cmp a) l.
Proof.
  induction l as [|x l IH]; [done|].
  cbn [sorted_by foldr]. rewrite sort_insert_stable.
  cbn [List.filter]. unfold sorted_by in IH. by rewrite IH.
Qed.

Lemma filter_eqb_head (x : A) (l : list A) :
  List.filter (cmp_eqb cmp x) (x :: l) = x :: List.filter (cmp_eqb cmp x) l.
Proof. cbn [List.filter]. unfold cmp_eqb at 1. by rewrite cmp_refl. Qed.

(** Two sorted lists whose elements that compare equal stand in the same
    order are the same list. *)
Lemma stable_sorted_unique (l1 l2 : list A) :
  StronglySorted (cmp_le cmp) l1 ->
  StronglySorted (cmp_le cmp) l2 ->
  (forall a, List.filter (cmp_eqb cmp a) l1 = List.filter (cmp_eqb cmp a) l2) ->
  l1 = l2.
Proof.
  intros H1. revert l2.
  induction H1 as [|x l1 Hl1 IH Hx]; intros l2 H2 Heq.
  - destruct l2 as [|y l2]; [done|].
    specialize (Heq y). by rewrite filter_eqb_head in Heq.
  - destruct H2 as [|y l2 Hl2 Hy].
    { specialize (Heq x). by rewrite filter_eqb_head in Heq. }
    assert (cmp x y <= 0) as Hxy.
    { assert (In y (x :: l1)) as [->|Hin].
      { eapply (proj1 (List.filter_In (cmp_eqb cmp y) _ _)).
        rewrite Heq, filter_eqb_head. by left. }
      - by rewrite cmp_refl.
      - rewrite Forall_forall in Hx. by apply Hx, list_elem_of_In. }
    assert (cmp y x <= 0) as Hyx.
    { assert (In x (y :: l2)) as [->|Hin].
      { eapply (proj1 (List.filter_In (cmp_eqb cmp x) _ _)).
        rewrite <- Heq, filter_eqb_head. by left. }
      - by rewrite cmp_refl.
      - rewrite Forall_forall in Hy. by apply Hy, list_elem_of_In. }
    assert (cmp_eqb cmp x y = true) as Hxy0.
    { unfold cmp_eqb. apply Z.eqb_eq.
      pose proof (cmp_antisym cmp Hcmp x y). lia. }
    assert (x = y) as <-.
    { specialize (Heq x). rewrite filter_eqb_head in Heq.
      cbn [List.filter] in Heq. rewrite Hxy0 in Heq. congruence. }
    f_equal. apply IH; [done|].
    intros a. specialize (Heq a). cbn [List.filter] in Heq.
    destruct (cmp_eqb cmp a x); congruence.
Qed.

(** Hence any stable sort returns the list [sorted_by] returns. *)
Lemma sorted_by_unique (l l' : list A) :
  StronglySorted (cmp_le cmp) l' ->
  (forall a, List.filter (cmp_eqb cmp a) l' = List.filter (cmp_eqb cmp a) l) ->
  l' = sorted_by cmp l.
Proof.
  intros Hl' Heq. apply stable_sorted_unique; [done|apply sorted_by_StronglySorted|].
  intros a. by rewrite sorted_by_stable.
Qed.

(** Sorting a sorted list changes nothing. *)
Lemma sorted_by_sorted (l : list A) :
  StronglySorted (cmp_le cmp) l -> sorted_by cmp l = l.
Proof. intros Hl. symmetry. by apply sorted_by_unique. Qed.

End SortFacts.

(** ** How one render runs *)

Section Correctness.
Context {collator : Collator}.

Lemma by_name_Consistent : Consistent by_name.
Proof.
  split; unfold by_name.
  - intros a b. apply localeCompare_antisym.
  - intros a b c. apply localeCompare_trans.
Qed.

(** Runs the component on a heap in which [Hl] finds the tenant list: the
    array of the response is read and written where it lies; without data
    the new array is written and read back. *)
Ltac run_component Hl :=
  unfold TenantDropdown, tenant_list, tenants_array, rendered_tree in *;
  unfold mbind, Render_bind, mret, Render_ret, useQuery, useTenant, useOrganizationSlug;
  destruct (data (queries _ listTenants)) as [d|]; simpl;
  unfold Array_sort, Array_map; simpl;
  [ rewrite Hl; simpl; rewrite lookup_insert_eq
  | injection Hl as <-; rewrite lookup_insert_eq; simpl;
    rewrite insert_insert_eq, lookup_insert_eq ].

(** The first render: both cells are created, the effect is scheduled. *)
Lemma TenantDropdown_mount (env : Env) (h : Heap) (l : list Tenant) :
  tenant_list env h = Some l ->
  TenantDropdown env {| rs_heap := h; rs_prev := None; rs_next := []; rs_effects := [] |}
  = Some (rendered_tree env false l,
          {| rs_heap := <[tenants_array env h := sorted_by by_name l]> h;
             rs_prev := None;
             rs_next := cells false [js_value (tenant (tenant_context env))];
             rs_effects := [SetState 0 false] |}).
Proof. intros Hl. by run_component Hl. Qed.

(** A later render: the cells are read back, and the effect is scheduled
    when the tenant is not the one of the previous render. *)
Lemma TenantDropdown_update (env : Env) (h : Heap) (l : list Tenant)
    (open : bool) (prev_deps : list JsValue) :
  tenant_list env h = Some l ->
  TenantDropdown env {| rs_heap := h; rs_prev := Some (cells open prev_deps);
                        rs_next := []; rs_effects := [] |}
  = Some (rendered_tree env open l,
          {| rs_heap := <[tenants_array env h := sorted_by by_name l]> h;
             rs_prev := Some [];
             rs_next := cells open [js_value (tenant (tenant_context env))];
             rs_effects :=
               if areHookInputsEqual [js_value (tenant (tenant_context env))] prev_deps
               then [] else [SetState 0 false] |}).
Proof. intros Hl. by run_component Hl. Qed.

(** A response whose array is not in the heap makes the render throw. *)
Lemma TenantDropdown_throws (env : Env) (h : Heap) (prev : option (list Hook)) :
  tenant_list env h = None ->
  TenantDropdown env {| rs_heap := h; rs_prev := prev; rs_next := []; rs_effects := [] |} = None.
Proof.
  unfold TenantDropdown, tenant_list, mbind, Render_bind, useQuery, useTenant, useOrganizationSlug.
  destruct (data (queries env listTenants)) as [d|]; [|done].
  intros Hd. simpl. unfold useState; simpl.
  destruct prev as [[|[v|ds] rest]|]; simpl; try done.
  - unfold useEffect; simpl.
    destruct rest as [|[|] ?]; simpl; try done.
    unfold Array_sort; simpl. by rewrite Hd.
  - unfold Array_sort; simpl. by rewrite Hd.
Qed.

Lemma render_well_formed (env : Env) (w : World) (l : list Tenant) :
  well_formed w ->
  tenant_list env (heap w) = Some l ->
  render env w =
    Some {| fiber := Some (cells (flag_after env w) [js_value (tenant (tenant_context env))]);
            heap := <[tenants_array env (heap w) := sorted_by by_name l]> (heap w);
            output := Some (rendered_tree env (flag_seen w) l) |}.
Proof.
  intros Hw Hl. unfold render, well_formed, flag_after, flag_seen, previous_tenant, open_flag in *.
  destruct (fiber w) as [hooks|] eqn:Hf.
  - destruct Hw as [(open & v & ->) _].
    rewrite (TenantDropdown_update env (heap w) l open [v] Hl). simpl.
    destruct (Object_is _ v); done.
  - by rewrite (TenantDropdown_mount env (heap w) l Hl).
Qed.

Lemma step_well_formed (ev : Event) (w w' : World) :
  well_formed w -> step ev w = Some w' -> well_formed w'.
Proof.
  intros Hw Hstep. destruct ev as [env|b| |l]; simpl in Hstep.
  - unfold render in Hstep. unfold well_formed in Hw.
    destruct (fiber w) as [hooks|] eqn:Hf.
    + destruct Hw as [(open & v & ->) _].
      destruct (tenant_list env (heap w)) as [l|] eqn:Hl.
      * rewrite (TenantDropdown_update env (heap w) l open [v] Hl) in Hstep.
        simpl in Hstep. injection Hstep as <-. unfold well_formed. simpl.
        split; [|by eexists].
        destruct (Object_is _ v); simpl; by eauto.
      * by rewrite (TenantDropdown_throws env (heap w) _ Hl) in Hstep.
    + destruct (tenant_list env (heap w)) as [l|] eqn:Hl.
      * rewrite (TenantDropdown_mount env (heap w) l Hl) in Hstep.
        simpl in Hstep. injection Hstep as <-. unfold well_formed. simpl.
        split; [by eauto|by eexists].
      * by rewrite (TenantDropdown_throws env (heap w) _ Hl) in Hstep.
  - unfold well_formed in *.
    destruct (fiber w) as [hooks|]; [|done].
    destruct Hw as [(open & v & ->) (tree & Ho & Hp)].
    rewrite Ho, Hp in Hstep. injection Hstep as <-. simpl.
    split; by eauto.
  - by injection Hstep as <-.
  - by injection Hstep as <-.
Qed.

Lemma reachable_well_formed (w : World) : reachable w -> well_formed w.
Proof.
  induction 1 as [h|ev w w' _ IH Hstep].
  - exact I.
  - by eapply step_well_formed.
Qed.

(** A render of a reachable component returns whenever the array of the
    query is in the heap, and this is the world it leaves. *)
Lemma step_Rendered (env : Env) (w : World) (l : list Tenant) :
  reachable w ->
  tenant_list env (heap w) = Some l ->
  step (Rendered env) w =
    Some {| fiber := Some (cells (flag_after env w) [js_value (tenant (tenant_context env))]);
            heap := <[tenants_array env (heap w) := sorted_by by_name l]> (heap w);
            output := Some (rendered_tree env (flag_seen w) l) |}.
Proof. intros Hw. apply render_well_formed. by apply reachable_well_formed. Qed.

(** A render that returns has found the array of the query in the heap. *)
Lemma step_Rendered_inv (env : Env) (w w' : World) :
  step (Rendered env) w = Some w' -> is_Some (tenant_list env (heap w)).
Proof.
  cbn [step]. unfold render. intros Hstep.
  destruct (tenant_list env (heap w)) as [l|] eqn:Hl; [by eexists|].
  by rewrite (TenantDropdown_throws env (heap w) _ Hl) in Hstep.
Qed.

(** ** The flag along the steps *)

(** After a render React remembers the tenant that render has seen. *)
Lemma previous_tenant_Rendered (env : Env) (w w' : World) :
  reachable w ->
  step (Rendered env) w = Some w' ->
  previous_tenant w' = Some (js_value (tenant (tenant_context env))).
Proof.
  intros Hw Hstep.
  destruct (step_Rendered_inv env w w' Hstep) as [l Hl].
  rewrite (step_Rendered env w l Hw Hl) in Hstep. by injection Hstep as <-.
Qed.

(** The popover sets the flag, and nothing else. *)
Lemma step_OpenChange (b : bool) (w w' : World) :
  reachable w ->
  step (OpenChange b) w = Some w' ->
  open_flag w' = Some b /\ previous_tenant w' = previous_tenant w /\
  heap w' = heap w /\ output w' = output w.
Proof.
  intros Hw%reachable_well_formed Hstep. cbn [step] in Hstep.
  unfold well_formed in Hw.
  destruct (fiber w) as [hooks|] eqn:Hf; [|done].
  destruct Hw as [(open & v & ->) (tree & Ho & Hp)].
  rewrite Ho, Hp in Hstep. injection Hstep as <-.
  unfold open_flag, previous_tenant. cbn. by rewrite Hf.
Qed.

(** A render with the tenant of the previous render keeps the flag. *)
Lemma same_tenant_keeps_flag (env : Env) (w w' : World) :
  reachable w ->
  previous_tenant w = Some (js_value (tenant (tenant_context env))) ->
  step (Rendered env) w = Some w' ->
  open_flag w' = open_flag w.
Proof.
  intros Hw Hprev Hstep.
  destruct (step_Rendered_inv env w w' Hstep) as [l Hl].
  rewrite (step_Rendered env w l Hw Hl) in Hstep. injection Hstep as <-.
  unfold open_flag at 1, flag_after, flag_seen. cbn. rewrite Hprev.
  unfold Object_is. rewrite bool_decide_eq_true_2 by done.
  apply reachable_well_formed in Hw. unfold well_formed in Hw.
  unfold previous_tenant, open_flag in *.
  destruct (fiber w) as [hooks|]; [|done].
  by destruct Hw as [(open & v & ->) _].
Qed.

(** A response that arrives leaves the component alone. *)
Lemma step_Fetched (l : list Tenant) (w w' : World) :
  step (Fetched l) w = Some w' ->
  open_flag w' = open_flag w /\ previous_tenant w' = previous_tenant w.
Proof. by intros [= <-]. Qed.

Lemma run_reachable (evs : list Event) (w w' : World) :
  reachable w -> run evs w = Some w' -> reachable w'.
Proof.
  revert w. induction evs as [|ev evs IH]; cbn [run]; intros w Hw Hrun.
  - by injection Hrun as <-.
  - destruct (step ev w) as [w1|] eqn:Hstep; [|done].
    apply (IH w1); [|done]. by eapply reachable_step.
Qed.

(** Between two renders React keeps the tenant the last render has seen. *)
Lemma previous_tenant_between (evs : list Event) (w w' : World) :
  reachable w ->
  Forall between_renders evs ->
  run evs w = Some w' ->
  previous_tenant w' = previous_tenant w.
Proof.
  intros Hw Hevs. revert w Hw.
  induction Hevs as [|ev evs Hev _ IH]; cbn [run]; intros w Hw Hrun.
  - by injection Hrun as <-.
  - destruct (step ev w) as [w1|] eqn:Hstep; [|done].
    rewrite (IH w1); [|by eapply reachable_step|done].
    destruct ev as [env|b| |l]; try done.
    + by destruct (step_OpenChange b w w1 Hw Hstep) as (_ & ? & _).
    + by destruct (step_Fetched l w w1 Hstep).
Qed.

(** What two consecutive renders find: the second one runs on a reachable
    world in which React remembers the tenant of the first. *)
Lemma consecutive_renders (env1 : Env) (w0 w1 w2 : World) (evs : list Event) :
  reachable w0 ->
  step (Rendered env1) w0 = Some w1 ->
  Forall between_renders evs ->
  run evs w1 = Some w2 ->
  reachable w2 /\
  previous_tenant w2 = Some (js_value (tenant (tenant_context env1))).
Proof.
  intros Hw0 Hstep Hevs Hrun.
  assert (reachable w1) as Hw1 by by eapply reachable_step.
  split; [by eapply run_reachable|].
  rewrite (previous_tenant_between evs w1 w2 Hw1 Hevs Hrun).
  exact (previous_tenant_Rendered env1 w0 w1 Hw0 Hstep).
Qed.

(** ** What a render does to the heap *)

(** The array of the response is sorted where it lies: after the render it
    holds the same tenants in sorted order, and no other array has changed. *)
Lemma render_sorts_in_place (env : Env) (w : World)
    (d : ListTenantsResponse) (l : list Tenant) :
  reachable w ->
  data (queries env listTenants) = Some d ->
  heap w !! tenants d = Some l ->
  exists w',
    step (Rendered env) w = Some w' /\
    heap w' !! tenants d = Some (sorted_by by_name l) /\
    (forall a, a <> tenants d -> heap w' !! a = heap w !! a).
Proof.
  intros Hw Hd Hl.
  assert (tenant_list env (heap w) = Some l) as Hlist.
  { unfold tenant_list. by rewrite Hd. }
  eexists. split; [by apply step_Rendered|]. cbn [heap].
  unfold tenants_array. rewrite Hd. split.
  - apply lookup_insert_eq.
  - intros a Ha. by apply lookup_insert_ne.
Qed.

(** Without data the render only adds its own empty array. *)
Lemma render_no_data_heap (env : Env) (w : World) :
  reachable w ->
  data (queries env listTenants) = None ->
  exists w',
    step (Rendered env) w = Some w' /\
    (forall a, is_Some (heap w !! a) -> heap w' !! a = heap w !! a).
Proof.
  intros Hw Hd.
  assert (tenant_list env (heap w) = Some []) as Hlist.
  { unfold tenant_list. by rewrite Hd. }
  eexists. split; [by apply step_Rendered|]. cbn [heap].
  unfold tenants_array. rewrite Hd.
  intros a Ha. apply lookup_insert_ne. intros <-.
  apply elem_of_dom in Ha. by apply is_fresh in Ha.
Qed.

(** The array of the response is left as it was exactly when it was sorted
    by name already. *)
Lemma render_keeps_array_iff_sorted (env : Env) (w w' : World)
    (d : ListTenantsResponse) (l : list Tenant) :
  reachable w ->
  data (queries env listTenants) = Some d ->
  heap w !! tenants d = Some l ->
  step (Rendered env) w = Some w' ->
  heap w' !! tenants d = Some l <-> StronglySorted (cmp_le by_name) l.
Proof.
  intros Hw Hd Hl Hstep.
  destruct (render_sorts_in_place env w d l Hw Hd Hl) as (w'' & Hstep' & Hsorted & _).
  assert (w'' = w') as -> by congruence.
  rewrite Hsorted. split.
  - intros [= Heq]. rewrite <- Heq.
    apply sorted_by_StronglySorted, by_name_Consistent.
  - intros Hs. f_equal. by apply sorted_by_sorted; [apply by_name_Consistent|].
Qed.

(** ** Reading the rendered tree *)

Lemma rows_by_tag (org t : string) (l : list Tenant) :
  String.eqb "Link" t = false -> String.eqb "CommandItem" t = false ->
  flat_map (elements_by_tag t) (tenant_row org <$> l) = [].
Proof.
  intros HLink HItem. induction l as [|x l IH]; [done|].
  rewrite fmap_cons. cbn [flat_map]. rewrite IH.
  unfold tenant_row. cbn [elements_by_tag flat_map]. by rewrite HLink, HItem.
Qed.

Lemma rows_links (org : string) (l : list Tenant) :
  flat_map (elements_by_tag "Link") (tenant_row org <$> l) = tenant_row org <$> l.
Proof.
  induction l as [|x l IH]; [done|].
  rewrite fmap_cons. cbn [flat_map]. by rewrite IH.
Qed.

Lemma rows_texts (org : string) (l : list Tenant) :
  flat_map texts (tenant_row org <$> l) = name <$> l.
Proof.
  induction l as [|x l IH]; [done|].
  rewrite !fmap_cons. cbn [flat_map]. by rewrite IH.
Qed.

(** Evaluates a search through the rendered tree. *)
Ltac read_tree :=
  unfold rendered_tree, view, trigger, new_tenant_item;
  try destruct (tenant (tenant_context _));
  cbn [elements_by_tag texts flat_map children_of jsx_expr app
       fmap option_fmap option_map String.eqb Ascii.eqb Bool.eqb];
  rewrite ?rows_links, ?rows_texts, ?rows_by_tag by reflexivity;
  cbn [flat_map children_of app];
  rewrite ?app_nil_r.

Lemma tenant_rows_rendered (env : Env) (open : bool) (l : list Tenant) :
  tenant_rows (rendered_tree env open l)
  = tenant_row (organization_slug env) <$> sorted_by by_name l.
Proof. unfold tenant_rows. by read_tree. Qed.

Lemma links_rendered (env : Env) (open : bool) (l : list Tenant) :
  elements_by_tag "Link" (rendered_tree env open l)
  = (tenant_row (organization_slug env) <$> sorted_by by_name l)
      ++ [new_tenant_link (organization_slug env)].
Proof. by read_tree. Qed.

Lemma texts_rendered (env : Env) (open : bool) (l : list Tenant) :
  texts (rendered_tree env open l)
  = "Tenant: " :: option_list (name ∘ fields <$> tenant (tenant_context env))
      ++ "No tenant found." :: (name <$> sorted_by by_name l) ++ [" New tenant"].
Proof. by read_tree. Qed.

Lemma rows_not_new_tenant_links (org : string) (l : list Tenant) :
  List.filter is_new_tenant_link (tenant_row org <$> l) = [].
Proof. induction l as [|x l IH]; [done|]. rewrite fmap_cons. cbn. exact IH. Qed.

Lemma tenant_row_name (org : string) (a b : Tenant) :
  tenant_row org a = tenant_row org b -> name a = name b.
Proof. unfold tenant_row. by intros [= _ _ _ ->]. Qed.

(** ** The properties of the component *)

(** C1: for every fetched collection the rows of the rendered list are
    sorted ascending by tenant name.  Every tenant of the collection has its
    row, and whenever the name of [A] compares before the name of [B], every
    row of [A] stands before every row of [B]. *)
Theorem rows_sorted_by_name (env : Env) (w : World) (l : list Tenant) :
  reachable w ->
  tenant_list env (heap w) = Some l ->
  exists w' tree,
    step (Rendered env) w = Some w' /\ output w' = Some tree /\
    (forall A, A ∈ l -> tenant_row (organization_slug env) A ∈ tenant_rows tree) /\
    (forall (A B : Tenant) (i j : nat),
        A ∈ l -> B ∈ l ->
        tenant_rows tree !! i = Some (tenant_row (organization_slug env) A) ->
        tenant_rows tree !! j = Some (tenant_row (organization_slug env) B) ->
        localeCompare (name A) (name B) < 0 ->
        (i < j)%nat).
Proof.
  intros Hw Hl. eexists _, _.
  split; [by apply step_Rendered|]. split; [done|]. cbn [output].
  rewrite tenant_rows_rendered. split.
  - intros A HA. apply list_elem_of_fmap_2. by apply sorted_by_elem_of.
  - intros A B i j _ _ Hi Hj Hlt.
    apply list_lookup_fmap_Some in Hi as (A' & HA' & Hi).
    apply list_lookup_fmap_Some in Hj as (B' & HB' & Hj).
    apply tenant_row_name in HA', HB'.
    apply (StronglySorted_lt_index by_name by_name_Consistent
             (sorted_by by_name l) i j A' B');
      [apply sorted_by_StronglySorted, by_name_Consistent|done|done|].
    unfold by_name. by rewrite <- HA', <- HB'.
Qed.

(** C2: every tenant of the fetched collection has its row in the list, a
    [Link] to [/{org}/{slug}], and every row of the list is such a row; and
    the tree holds exactly one New tenant link (the link around the button
    labelled New tenant), whose target is [/{org}/tenants/new]. *)
Theorem link_targets (env : Env) (w : World) (l : list Tenant) :
  reachable w ->
  tenant_list env (heap w) = Some l ->
  exists w' tree lnk,
    step (Rendered env) w = Some w' /\ output w' = Some tree /\
    (forall t, t ∈ l ->
       exists row, row ∈ tenant_rows tree /\
         row = tenant_row (organization_slug env) t /\
         tag_of row = Some "Link" /\
         prop "to" row = Some (PStr ("/" +:+ organization_slug env +:+ "/" +:+ slug t))) /\
    (forall row, row ∈ tenant_rows tree ->
       exists t, t ∈ l /\ row = tenant_row (organization_slug env) t) /\
    List.filter is_new_tenant_link (elements_by_tag "Link" tree) = [lnk] /\
    prop "to" lnk = Some (PStr ("/" +:+ organization_slug env +:+ "/tenants/new")).
Proof.
  intros Hw Hl. eexists _, _, (new_tenant_link (organization_slug env)).
  split; [by apply step_Rendered|]. split; [done|]. cbn [output].
  rewrite tenant_rows_rendered, links_rendered. repeat split.
  - intros t Ht. exists (tenant_row (organization_slug env) t).
    repeat split. apply list_elem_of_fmap_2. by apply sorted_by_elem_of.
  - intros row (t & -> & Ht)%list_elem_of_fmap.
    exists t. split; [|done]. by apply sorted_by_elem_of in Ht.
  - by rewrite List.filter_app, rows_not_new_tenant_links.
Qed.

(** The tree of a render without tenants: when the query has no data (a
    failed fetch, or one that has not completed), or holds an empty
    collection, the render returns (nothing is thrown), the list has no
    rows, the tree holds the [CommandEmpty] element, and its only texts are
    the label of the trigger, the name of the active tenant if there is one,
    the text of [CommandEmpty] and the label of the New tenant button. *)
Lemma tree_without_tenants (env : Env) (w : World) :
  reachable w ->
  data (queries env listTenants) = None \/ fetched env (heap w) = Some [] ->
  exists w' tree,
    step (Rendered env) w = Some w' /\ output w' = Some tree /\
    tenant_rows tree = [] /\
    elements_by_tag "CommandEmpty" tree
      = [Elem "CommandEmpty" None [] [Text "No tenant found."]] /\
    texts tree
      = "Tenant: " :: option_list (name ∘ fields <$> tenant (tenant_context env))
          ++ ["No tenant found."; " New tenant"].
Proof.
  intros Hw Hdata.
  assert (tenant_list env (heap w) = Some []) as Hl.
  { unfold tenant_list, fetched in *.
    destruct Hdata as [-> | Hf]; [done|].
    by destruct (data (queries env listTenants)). }
  eexists _, _.
  split; [by apply step_Rendered|]. split; [done|]. cbn [output].
  rewrite tenant_rows_rendered, texts_rendered. repeat split.
  by read_tree.
Qed.

(** A render whose tenant is not the dependency React remembers leaves the
    flag false; and such a render does return whenever the array of the query
    is in the heap. *)
Lemma changed_dependency_closes_popover (env : Env) (w : World) (v : JsValue) :
  reachable w ->
  previous_tenant w = Some v ->
  js_value (tenant (tenant_context env)) <> v ->
  (forall w', step (Rendered env) w = Some w' -> open_flag w' = Some false) /\
  (forall l, tenant_list env (heap w) = Some l -> is_Some (step (Rendered env) w)).
Proof.
  intros Hw Hprev Hne. split.
  - intros w' Hstep.
    destruct (step_Rendered_inv env w w' Hstep) as [l Hl].
    rewrite (step_Rendered env w l Hw Hl) in Hstep. injection Hstep as <-.
    unfold open_flag, flag_after. cbn. rewrite Hprev.
    unfold Object_is. by rewrite bool_decide_eq_false_2.
  - intros l Hl. rewrite (step_Rendered env w l Hw Hl). by eexists.
Qed.

(** C5: whenever the active tenant changes the popover is closed.  Take two
    consecutive renders of the component, the first in [env1], the second in
    [env2], with nothing between them but the popover asking to be opened or
    closed and responses arriving.  If the active tenant of the second render
    is not the active tenant of the first (React compares the two with
    [Object.is]), the second render leaves the flag false; and the second
    render does return whenever the array of the query is in the heap. *)
Theorem tenant_change_closes_popover (env1 env2 : Env) (w0 w1 w2 : World)
    (evs : list Event) :
  reachable w0 ->
  step (Rendered env1) w0 = Some w1 ->
  Forall between_renders evs ->
  run evs w1 = Some w2 ->
  js_value (tenant (tenant_context env2)) <> js_value (tenant (tenant_context env1)) ->
  (forall w3, step (Rendered env2) w2 = Some w3 -> open_flag w3 = Some false) /\
  (forall l, tenant_list env2 (heap w2) = Some l -> is_Some (step (Rendered env2) w2)).
Proof.
  intros Hw0 Hstep Hevs Hrun Hne.
  destruct (consecutive_renders env1 w0 w1 w2 evs Hw0 Hstep Hevs Hrun) as [Hw2 Hprev].
  by apply (changed_dependency_closes_popover env2 w2 _ Hw2 Hprev).
Qed.

(** C6: the rows of the list are the tenants of the fetched collection in
    some order: one row per tenant, a [Link] keyed by the id of the tenant
    and labelled with its name, none dropped and none added. *)
Theorem rows_are_the_fetched_tenants (env : Env) (w : World) (l : list Tenant) :
  reachable w ->
  tenant_list env (heap w) = Some l ->
  exists w' tree l',
    step (Rendered env) w = Some w' /\ output w' = Some tree /\
    l' ≡ₚ l /\
    Forall2 (fun row t =>
               row = tenant_row (organization_slug env) t /\
               key_of row = Some (id t) /\ textContent row = name t)
            (tenant_rows tree) l'.
Proof.
  intros Hw Hl. eexists _, _, (sorted_by by_name l).
  split; [by apply step_Rendered|]. split; [done|]. cbn [output].
  split; [apply sorted_by_Permutation|].
  rewrite tenant_rows_rendered. apply Forall2_fmap_l, Forall_Forall2_diag.
  by apply Forall_forall.
Qed.


(** C8: on every mount the popover is closed: the first render passes
    [open = false] to the popover, and the flag is false once the component
    is mounted, whatever the fetched collection and the active tenant. *)
Theorem open_initially_false (env : Env) (w : World) (l : list Tenant) :
  fiber w = None ->
  tenant_list env (heap w) = Some l ->
  exists w' tree,
    step (Rendered env) w = Some w' /\ output w' = Some tree /\
    prop "open" tree = Some (PBool false) /\
    open_flag w' = Some false.
Proof.
  intros Hf Hl. eexists _, _.
  split.
  { apply render_well_formed; [|done]. unfold well_formed. by rewrite Hf. }
  split; [done|].
  unfold flag_seen, flag_after, open_flag, previous_tenant. by rewrite Hf.
Qed.

(** C9: without an active tenant the render still returns, and the trigger
    shows its label with an empty name. *)
Theorem absent_tenant_empty_name (env : Env) (w : World) (l : list Tenant) :
  reachable w ->
  tenant_list env (heap w) = Some l ->
  tenant (tenant_context env) = None ->
  exists w' tree button,
    step (Rendered env) w = Some w' /\ output w' = Some tree /\
    elements_by_tag "PopoverTrigger" tree = [button] /\
    last (elements_by_tag "span" button) = Some (Elem "span" None [] []) /\
    textContent button = "Tenant: ".
Proof.
  intros Hw Hl Ht. eexists _, _, (trigger None).
  split; [by apply step_Rendered|]. split; [done|]. cbn [output].
  split; [|done].
  unfold rendered_tree. rewrite Ht. by read_tree.
Qed.


(** ** More properties of the component *)

(** After a render the tenant list is the sorted one. *)
Lemma tenant_list_after_render (env : Env) (w w' : World) (l : list Tenant) :
  reachable w ->
  tenant_list env (heap w) = Some l ->
  step (Rendered env) w = Some w' ->
  tenant_list env (heap w') = Some (sorted_by by_name l).
Proof.
  intros Hw Hl Hstep. rewrite (step_Rendered env w l Hw Hl) in Hstep.
  injection Hstep as <-. cbn [heap].
  unfold tenant_list, tenants_array in *.
  destruct (data (queries env listTenants)) as [d|].
  - apply lookup_insert_eq.
  - by injection Hl as <-.
Qed.

Lemma prop_open_rendered (env : Env) (open : bool) (l : list Tenant) :
  prop "open" (rendered_tree env open l) = Some (PBool open).
Proof. reflexivity. Qed.


(** X2: a render never adds, drops or alters a tenant record of any array,
    and it writes no array but the one of the query: every array of the heap
    holds the same tenants afterwards, and an array that is not the array of
    the response is as it was. *)
Theorem render_writes_only_the_query_array (env : Env) (w : World) (l : list Tenant) :
  reachable w ->
  tenant_list env (heap w) = Some l ->
  exists w',
    step (Rendered env) w = Some w' /\
    forall a l0,
      heap w !! a = Some l0 ->
      exists l1,
        heap w' !! a = Some l1 /\ l1 ≡ₚ l0 /\
        ((forall d, data (queries env listTenants) = Some d -> tenants d <> a) -> l1 = l0).
Proof.
  intros Hw Hl. eexists. split; [by apply step_Rendered|]. cbn [heap].
  intros a l0 Ha. unfold tenants_array, tenant_list in *.
  destruct (data (queries env listTenants)) as [d|] eqn:Hd.
  - destruct (decide (tenants d = a)) as [<-|Hne].
    + assert (l0 = l) as -> by congruence.
      exists (sorted_by by_name l). rewrite lookup_insert_eq.
      split; [done|]. split; [apply sorted_by_Permutation|].
      intros Hother. by destruct (Hother d).
    + exists l0. by rewrite lookup_insert_ne.
  - exists l0. rewrite lookup_insert_ne; [done|].
    intros <-. assert (fresh (dom (heap w)) ∈ dom (heap w)) as Hin.
    { apply elem_of_dom. by eexists. }
    by apply is_fresh in Hin.
Qed.

(** X3: the array of the response is left exactly as it was if and only if
    it was in name order already. *)
Theorem array_untouched_iff_sorted (env : Env) (w : World)
    (d : ListTenantsResponse) (l : list Tenant) :
  reachable w ->
  data (queries env listTenants) = Some d ->
  heap w !! tenants d = Some l ->
  exists w',
    step (Rendered env) w = Some w' /\
    (heap w' !! tenants d = Some l <-> StronglySorted (cmp_le by_name) l).
Proof.
  intros Hw Hd Hl.
  destruct (render_sorts_in_place env w d l Hw Hd Hl) as (w' & Hstep & Hsorted & _).
  exists w'. split; [done|]. rewrite Hsorted. split.
  - intros [= Heq]. rewrite <- Heq.
    apply sorted_by_StronglySorted, by_name_Consistent.
  - intros Hs. f_equal. by apply sorted_by_sorted; [apply by_name_Consistent|].
Qed.

(** X4: rendering again changes nothing: once the component has rendered, a
    second render in the same context leaves the heap as the first one left
    it and renders the same rows. *)
Theorem second_render_changes_nothing (env : Env) (w w1 : World)
    (d : ListTenantsResponse) (l : list Tenant) :
  reachable w ->
  data (queries env listTenants) = Some d ->
  heap w !! tenants d = Some l ->
  step (Rendered env) w = Some w1 ->
  exists w2,
    step (Rendered env) w1 = Some w2 /\
    heap w2 = heap w1 /\
    tenant_rows <$> output w2 = tenant_rows <$> output w1.
Proof.
  intros Hw Hd Hl Hstep.
  assert (tenant_list env (heap w) = Some l) as Hlist.
  { unfold tenant_list. by rewrite Hd. }
  assert (reachable w1) as Hw1 by by eapply reachable_step.
  pose proof (tenant_list_after_render env w w1 l Hw Hlist Hstep) as Hlist1.
  assert (sorted_by by_name (sorted_by by_name l) = sorted_by by_name l) as Hidem.
  { apply sorted_by_sorted; [apply by_name_Consistent|].
    apply sorted_by_StronglySorted, by_name_Consistent. }
  eexists. split; [by apply step_Rendered|]. cbn [heap output].
  rewrite (step_Rendered env w l Hw Hlist) in Hstep. injection Hstep as <-.
  cbn [heap output fmap option_fmap option_map].
  rewrite !tenant_rows_rendered, Hidem. split; [|done].
  unfold tenants_array. rewrite Hd. cbn [heap]. by rewrite insert_insert_eq.
Qed.

(** X5: take two consecutive renders, the first in [env1], the second in
    [env2], with nothing between them but the popover asking to be opened or
    closed and responses arriving.  If the active tenant of the second is the
    active tenant of the first, the second render leaves the popover as it
    finds it, open or closed, whatever the query holds by then; and it
    returns whenever the array of the query is in the heap. *)
Theorem same_tenant_keeps_popover (env1 env2 : Env) (w0 w1 w2 : World)
    (evs : list Event) :
  reachable w0 ->
  step (Rendered env1) w0 = Some w1 ->
  Forall between_renders evs ->
  run evs w1 = Some w2 ->
  js_value (tenant (tenant_context env2)) = js_value (tenant (tenant_context env1)) ->
  (forall w3, step (Rendered env2) w2 = Some w3 -> open_flag w3 = open_flag w2) /\
  (forall l, tenant_list env2 (heap w2) = Some l -> is_Some (step (Rendered env2) w2)).
Proof.
  intros Hw0 Hstep Hevs Hrun Heq.
  destruct (consecutive_renders env1 w0 w1 w2 evs Hw0 Hstep Hevs Hrun) as [Hw2 Hprev].
  rewrite <- Heq in Hprev. split.
  - intros w3 Hstep3. by eapply same_tenant_keeps_flag.
  - intros l Hl. rewrite (step_Rendered env2 w2 l Hw2 Hl). by eexists.
Qed.

(** The round trip through the popover, from a world in which React
    remembers the tenant of the render to come. *)
Lemma open_change_then_render (env : Env) (w : World) (hooks : list Hook)
    (l : list Tenant) (b : bool) :
  reachable w ->
  fiber w = Some hooks ->
  previous_tenant w = Some (js_value (tenant (tenant_context env))) ->
  tenant_list env (heap w) = Some l ->
  exists w1 w2 tree,
    step (OpenChange b) w = Some w1 /\ open_flag w1 = Some b /\
    step (Rendered env) w1 = Some w2 /\ output w2 = Some tree /\
    prop "open" tree = Some (PBool b) /\ open_flag w2 = Some b.
Proof.
  intros Hw Hf Hprev Hl.
  assert (exists w1, step (OpenChange b) w = Some w1) as [w1 Hstep1].
  { pose proof (reachable_well_formed w Hw) as Hwf.
    unfold well_formed in Hwf. cbn [step]. rewrite Hf in *.
    destruct Hwf as [_ (tree & -> & ->)]. by eexists. }
  assert (reachable w1) as Hw1 by by eapply reachable_step.
  destruct (step_OpenChange b w w1 Hw Hstep1) as (Hopen & Hprev1 & Hheap & _).
  assert (flag_seen w1 = b) as Hseen by (unfold flag_seen; by rewrite Hopen).
  exists w1. eexists _, _. split; [done|]. split; [done|].
  split; [apply step_Rendered; [done|by rewrite Hheap]|].
  split; [done|]. split; [by rewrite prop_open_rendered, Hseen|].
  unfold open_flag, flag_after. cbn. rewrite Hprev1, Hprev, Hseen.
  unfold Object_is. by rewrite bool_decide_eq_true_2.
Qed.

(** X6: the popover is controlled by the flag.  After a render in [env1],
    when the popover asks for [b], the setter stores [b], and the next render,
    in any context [env2] with the same active tenant, passes [open = b] back
    to the popover and keeps the flag [b]. *)
Theorem open_change_round_trip (env1 env2 : Env) (w0 w : World)
    (l : list Tenant) (b : bool) :
  reachable w0 ->
  step (Rendered env1) w0 = Some w ->
  js_value (tenant (tenant_context env2)) = js_value (tenant (tenant_context env1)) ->
  tenant_list env2 (heap w) = Some l ->
  exists w1 w2 tree,
    step (OpenChange b) w = Some w1 /\ open_flag w1 = Some b /\
    step (Rendered env2) w1 = Some w2 /\ output w2 = Some tree /\
    prop "open" tree = Some (PBool b) /\ open_flag w2 = Some b.
Proof.
  intros Hw0 Hstep Heq Hl.
  assert (reachable w) as Hw by by eapply reachable_step.
  pose proof (previous_tenant_Rendered env1 w0 w Hw0 Hstep) as Hprev.
  rewrite <- Heq in Hprev.
  destruct (fiber w) as [hooks|] eqn:Hf.
  - by eapply open_change_then_render.
  - unfold previous_tenant in Hprev. by rewrite Hf in Hprev.
Qed.

(** The render in which the dependency changes, and the one after it. *)
Lemma changed_dependency_shows_on_next_render (env : Env) (w : World)
    (l : list Tenant) (v : JsValue) (b : bool) :
  reachable w ->
  tenant_list env (heap w) = Some l ->
  open_flag w = Some b ->
  previous_tenant w = Some v ->
  js_value (tenant (tenant_context env)) <> v ->
  exists w1 tree1 w2 tree2,
    step (Rendered env) w = Some w1 /\ output w1 = Some tree1 /\
    prop "open" tree1 = Some (PBool b) /\
    step (Rendered env) w1 = Some w2 /\ output w2 = Some tree2 /\
    prop "open" tree2 = Some (PBool false).
Proof.
  intros Hw Hl Hopen Hprev Hne.
  pose proof (step_Rendered env w l Hw Hl) as Hstep1.
  assert (reachable _) as Hw1 by exact (reachable_step _ _ _ Hw Hstep1).
  pose proof (tenant_list_after_render env w _ l Hw Hl Hstep1) as Hl1.
  eexists _, _, _, _. split; [exact Hstep1|]. split; [done|].
  split; [rewrite prop_open_rendered; unfold flag_seen; by rewrite Hopen|].
  split; [by apply step_Rendered|]. split; [done|].
  rewrite prop_open_rendered. unfold flag_seen, open_flag, flag_after. cbn.
  rewrite Hprev. unfold Object_is. by rewrite bool_decide_eq_false_2.
Qed.

(** X7: the popover is closed by an effect, after the render.  Take a render
    in [env1], then the popover asking to be opened or closed and responses
    arriving, which leave the flag [b], then a render in [env2] whose active
    tenant is not the one of [env1].  That render still passes [open = b] to
    the popover; it is the render after it that passes [open = false]. *)
Theorem closing_shows_on_next_render (env1 env2 : Env) (w0 w1 w2 : World)
    (evs : list Event) (l : list Tenant) (b : bool) :
  reachable w0 ->
  step (Rendered env1) w0 = Some w1 ->
  Forall between_renders evs ->
  run evs w1 = Some w2 ->
  open_flag w2 = Some b ->
  tenant_list env2 (heap w2) = Some l ->
  js_value (tenant (tenant_context env2)) <> js_value (tenant (tenant_context env1)) ->
  exists w3 tree3 w4 tree4,
    step (Rendered env2) w2 = Some w3 /\ output w3 = Some tree3 /\
    prop "open" tree3 = Some (PBool b) /\
    step (Rendered env2) w3 = Some w4 /\ output w4 = Some tree4 /\
    prop "open" tree4 = Some (PBool false).
Proof.
  intros Hw0 Hstep Hevs Hrun Hopen Hl Hne.
  destruct (consecutive_renders env1 w0 w1 w2 evs Hw0 Hstep Hevs Hrun) as [Hw2 Hprev].
  by eapply changed_dependency_shows_on_next_render.
Qed.

(** X8: the keys of the rows are the ids of the fetched tenants, so the rows
    have distinct keys exactly when the fetched tenants have distinct ids:
    the component removes no duplicate. *)
Theorem row_keys_distinct_iff_ids_distinct (env : Env) (w : World) (l : list Tenant) :
  reachable w ->
  tenant_list env (heap w) = Some l ->
  exists w' tree,
    step (Rendered env) w = Some w' /\ output w' = Some tree /\
    (NoDup (key_of <$> tenant_rows tree) <-> NoDup (id <$> l)).
Proof.
  intros Hw Hl. eexists _, _.
  split; [by apply step_Rendered|]. split; [done|]. cbn [output].
  rewrite tenant_rows_rendered, <- list_fmap_compose.
  change (key_of ∘ tenant_row (organization_slug env)) with (Some ∘ id).
  rewrite list_fmap_compose, (NoDup_fmap Some).
  by rewrite sorted_by_Permutation.
Qed.

(** X9: the target of a row is determined by the slug alone: two rows have
    the same target exactly when their tenants have the same slug, and the
    row of a tenant has the target of the New tenant link exactly when its
    slug is [tenants/new]. *)
Theorem link_target_collisions (org : string) (t1 t2 : Tenant) :
  (prop "to" (tenant_row org t1) = prop "to" (tenant_row org t2)
   <-> slug t1 = slug t2) /\
  (prop "to" (tenant_row org t1) = prop "to" (new_tenant_link org)
   <-> slug t1 = "tenants/new").
Proof.
  split; (split; [|by cbn; intros ->]).
  - cbn. intros [= H]. by repeat apply String.app_inj in H.
  - cbn. intros [= H]. apply String.app_inj in H.
    change "/tenants/new" with ("/" +:+ "tenants/new") in H.
    by repeat apply String.app_inj in H.
Qed.

(** X10: the trigger shows the name of the active tenant, whether or not
    that tenant is among the fetched ones. *)
Theorem trigger_shows_active_tenant (env : Env) (w : World) (l : list Tenant)
    (o : TenantObject) :
  reachable w ->
  tenant_list env (heap w) = Some l ->
  tenant (tenant_context env) = Some o ->
  exists w' tree button,
    step (Rendered env) w = Some w' /\ output w' = Some tree /\
    elements_by_tag "PopoverTrigger" tree = [button] /\
    textContent button = "Tenant: " +:+ name (fields o).
Proof.
  intros Hw Hl Ht. eexists _, _, (trigger (Some o)).
  split; [by apply step_Rendered|]. split; [done|]. cbn [output].
  split; [|done].
  unfold rendered_tree. rewrite Ht. by read_tree.
Qed.

(** X11: the links of the tree are the rows, in their order, followed by the
    New tenant link: one link more than there are fetched tenants, and no
    other. *)
Theorem links_are_rows_then_new_tenant (env : Env) (w : World) (l : list Tenant) :
  reachable w ->
  tenant_list env (heap w) = Some l ->
  exists w' tree,
    step (Rendered env) w = Some w' /\ output w' = Some tree /\
    elements_by_tag "Link" tree
      = tenant_rows tree ++ [new_tenant_link (organization_slug env)] /\
    length (elements_by_tag "Link" tree) = S (length l).
Proof.
  intros Hw Hl. eexists _, _.
  split; [by apply step_Rendered|]. split; [done|]. cbn [output].
  rewrite links_rendered, tenant_rows_rendered. split; [done|].
  rewrite length_app, length_fmap, sorted_by_length. cbn. lia.
Qed.

(** ** What cmdk shows of the placeholder *)

Lemma rows_command_items (org : string) (l : list Tenant) :
  length (flat_map (elements_by_tag "CommandItem") (tenant_row org <$> l)) = length l.
Proof.
  induction l as [|x l IH]; [done|].
  rewrite fmap_cons. cbn [flat_map]. rewrite length_app, IH. by cbn.
Qed.

(** The items cmdk counts are the rows and the New tenant item: the count
    is never zero, so [CommandEmpty] is shown for no tenant list. *)
Lemma command_empty_never_shown (env : Env) (w : World) (l : list Tenant) :
  reachable w ->
  tenant_list env (heap w) = Some l ->
  exists w' tree,
    step (Rendered env) w = Some w' /\ output w' = Some tree /\
    command_item_count tree = S (length l) /\
    command_empty_shown tree = false.
Proof.
  intros Hw Hl. eexists _, _.
  split; [by apply step_Rendered|]. split; [done|]. cbn [output].
  assert (command_item_count (rendered_tree env (flag_seen w) l) = S (length l)) as Hcount.
  { unfold command_item_count. read_tree.
    all: cbn [flat_map elements_by_tag String.eqb Ascii.eqb Bool.eqb app].
    all: rewrite (rows_by_tag _ "Command") by reflexivity.
    all: unfold new_tenant_link.
    all: cbn [flat_map elements_by_tag String.eqb Ascii.eqb Bool.eqb app].
    all: rewrite !length_app, rows_command_items, sorted_by_length; cbn; lia. }
  split; [done|]. unfold command_empty_shown. by rewrite Hcount.
Qed.

End Correctness.

(** ** The component at concrete inputs *)

(** The theorems above, run with code-unit collation: on the first render in
    [env0], where the query holds [zeta; acme]; on the first render without
    data and without an active tenant; and on a mounted component whose
    popover the user has opened. *)


Lemma rows_sorted_by_name_witness :
  exists w' tree,
    @step ordinal_collator (Rendered env0) (initial heap0) = Some w' /\
    output w' = Some tree /\
    (forall A, A ∈ [zeta; acme] -> tenant_row "org" A ∈ tenant_rows tree) /\
    (forall (A B : Tenant) (i j : nat),
        A ∈ [zeta; acme] -> B ∈ [zeta; acme] ->
        tenant_rows tree !! i = Some (tenant_row "org" A) ->
        tenant_rows tree !! j = Some (tenant_row "org" B) ->
        ordinal_compare (name A) (name B) < 0 ->
        (i < j)%nat).
Proof.
  apply (@rows_sorted_by_name ordinal_collator env0 (initial heap0) [zeta; acme]).
  - apply reachable_initial.
  - vm_compute; reflexivity.
Defined.

Lemma link_targets_witness :
  exists w' tree lnk,
    @step ordinal_collator (Rendered env0) (initial heap0) = Some w' /\
    output w' = Some tree /\
    (forall t, t ∈ [zeta; acme] ->
       exists row, row ∈ tenant_rows tree /\
         row = tenant_row "org" t /\
         tag_of row = Some "Link" /\
         prop "to" row = Some (PStr ("/" +:+ "org" +:+ "/" +:+ slug t))) /\
    (forall row, row ∈ tenant_rows tree ->
       exists t, t ∈ [zeta; acme] /\ row = tenant_row "org" t) /\
    List.filter is_new_tenant_link (elements_by_tag "Link" tree) = [lnk] /\
    prop "to" lnk = Some (PStr ("/" +:+ "org" +:+ "/tenants/new")).
Proof.
  apply (@link_targets ordinal_collator env0 (initial heap0) [zeta; acme]).
  - apply reachable_initial.
  - vm_compute; reflexivity.
Defined.


Lemma tenant_change_closes_popover_witness :
  open_flag world_open = Some true /\
  (forall w3, @step ordinal_collator (Rendered env_switched) world_open = Some w3 ->
              open_flag w3 = Some false) /\
  (forall l, tenant_list env_switched (heap world_open) = Some l ->
             is_Some (@step ordinal_collator (Rendered env_switched) world_open)).
Proof.
  split; [reflexivity|].
  apply (@tenant_change_closes_popover ordinal_collator env0 env_switched
           (initial heap0) world_mounted world_open [OpenChange true]).
  - apply reachable_initial.
  - vm_compute; reflexivity.
  - repeat constructor.
  - reflexivity.
  - discriminate.
Defined.

Lemma rows_are_the_fetched_tenants_witness :
  exists w' tree l',
    @step ordinal_collator (Rendered env0) (initial heap0) = Some w' /\
    output w' = Some tree /\
    l' ≡ₚ [zeta; acme] /\
    Forall2 (fun row t =>
               row = tenant_row "org" t /\
               key_of row = Some (id t) /\ textContent row = name t)
            (tenant_rows tree) l'.
Proof.
  apply (@rows_are_the_fetched_tenants ordinal_collator env0 (initial heap0) [zeta; acme]).
  - apply reachable_initial.
  - vm_compute; reflexivity.
Defined.





Lemma open_initially_false_witness :
  exists w' tree,
    @step ordinal_collator (Rendered env0) (initial heap0) = Some w' /\
    output w' = Some tree /\
    prop "open" tree = Some (PBool false) /\
    open_flag w' = Some false.
Proof.
  apply (@open_initially_false ordinal_collator env0 (initial heap0) [zeta; acme]).
  - reflexivity.
  - vm_compute; reflexivity.
Defined.

Lemma absent_tenant_empty_name_witness :
  exists w' tree button,
    @step ordinal_collator (Rendered env_no_data) (initial heap0) = Some w' /\
    output w' = Some tree /\
    elements_by_tag "PopoverTrigger" tree = [button] /\
    last (elements_by_tag "span" button) = Some (Elem "span" None [] []) /\
    textContent button = "Tenant: ".
Proof.
  apply (@absent_tenant_empty_name ordinal_collator env_no_data (initial heap0) []).
  - apply reachable_initial.
  - reflexivity.
  - reflexivity.
Defined.


(** C4: rendering does not leave the fetched collection as it was.  The
    array the query holds is [zeta; acme] before the first render and
    [acme; zeta] after it: [sort] has swapped its elements in place. *)
Theorem render_reorders_fetched_array :
  fetched env0 heap0 = Some [zeta; acme] /\
  exists w',
    @step ordinal_collator (Rendered env0) (initial heap0) = Some w' /\
    fetched env0 (heap w') = Some [acme; zeta].
Proof.
  split; [reflexivity|].
  eexists. split; [vm_compute; reflexivity|]. reflexivity.
Qed.

(** ** More properties at concrete inputs *)

Lemma world_mounted_reachable : @reachable ordinal_collator world_mounted.
Proof.
  apply (reachable_step (Rendered env0) (initial heap0)); [|vm_compute; reflexivity].
  apply reachable_initial.
Defined.


Lemma render_writes_only_the_query_array_witness :
  exists w',
    @step ordinal_collator (Rendered env0) (initial heap0) = Some w' /\
    forall a l0,
      heap0 !! a = Some l0 ->
      exists l1,
        heap w' !! a = Some l1 /\ l1 ≡ₚ l0 /\
        ((forall d, data (queries env0 listTenants) = Some d -> tenants d <> a) -> l1 = l0).
Proof.
  apply (@render_writes_only_the_query_array ordinal_collator env0 (initial heap0) [zeta; acme]).
  - apply reachable_initial.
  - vm_compute; reflexivity.
Defined.

Lemma array_untouched_iff_sorted_witness :
  exists w',
    @step ordinal_collator (Rendered env0) (initial heap0) = Some w' /\
    (heap w' !! 7%nat = Some [zeta; acme]
     <-> StronglySorted (cmp_le (@by_name ordinal_collator)) [zeta; acme]).
Proof.
  apply (@array_untouched_iff_sorted ordinal_collator env0 (initial heap0)
           {| tenants := 7%nat |} [zeta; acme]).
  - apply reachable_initial.
  - reflexivity.
  - vm_compute; reflexivity.
Defined.

Lemma second_render_changes_nothing_witness :
  exists w2,
    @step ordinal_collator (Rendered env0) world_mounted = Some w2 /\
    heap w2 = heap world_mounted /\
    tenant_rows <$> output w2 = tenant_rows <$> output world_mounted.
Proof.
  apply (@second_render_changes_nothing ordinal_collator env0 (initial heap0) world_mounted
           {| tenants := 7%nat |} [zeta; acme]).
  - apply reachable_initial.
  - reflexivity.
  - vm_compute; reflexivity.
  - vm_compute; reflexivity.
Defined.

Lemma same_tenant_keeps_popover_witness :
  open_flag world_open = Some true /\
  (forall w3, @step ordinal_collator (Rendered env0) world_open = Some w3 ->
              open_flag w3 = open_flag world_open) /\
  (forall l, tenant_list env0 (heap world_open) = Some l ->
             is_Some (@step ordinal_collator (Rendered env0) world_open)).
Proof.
  split; [reflexivity|].
  apply (@same_tenant_keeps_popover ordinal_collator env0 env0
           (initial heap0) world_mounted world_open [OpenChange true]).
  - apply reachable_initial.
  - vm_compute; reflexivity.
  - repeat constructor.
  - reflexivity.
  - reflexivity.
Defined.

Lemma open_change_round_trip_witness :
  exists w1 w2 tree,
    @step ordinal_collator (OpenChange true) world_mounted = Some w1 /\
    open_flag w1 = Some true /\
    @step ordinal_collator (Rendered env0) w1 = Some w2 /\ output w2 = Some tree /\
    prop "open" tree = Some (PBool true) /\ open_flag w2 = Some true.
Proof.
  apply (@open_change_round_trip ordinal_collator env0 env0 (initial heap0) world_mounted
           [acme; zeta] true).
  - apply reachable_initial.
  - vm_compute; reflexivity.
  - reflexivity.
  - vm_compute; reflexivity.
Defined.

Lemma closing_shows_on_next_render_witness :
  exists w3 tree3 w4 tree4,
    @step ordinal_collator (Rendered env_switched) world_open = Some w3 /\
    output w3 = Some tree3 /\
    prop "open" tree3 = Some (PBool true) /\
    @step ordinal_collator (Rendered env_switched) w3 = Some w4 /\
    output w4 = Some tree4 /\
    prop "open" tree4 = Some (PBool false).
Proof.
  apply (@closing_shows_on_next_render ordinal_collator env0 env_switched
           (initial heap0) world_mounted world_open [OpenChange true] [acme; zeta] true).
  - apply reachable_initial.
  - vm_compute; reflexivity.
  - repeat constructor.
  - reflexivity.
  - reflexivity.
  - vm_compute; reflexivity.
  - discriminate.
Defined.

Lemma row_keys_distinct_iff_ids_distinct_witness :
  exists w' tree,
    @step ordinal_collator (Rendered env0) (initial heap0) = Some w' /\
    output w' = Some tree /\
    (NoDup (key_of <$> tenant_rows tree) <-> NoDup (id <$> [zeta; acme])).
Proof.
  apply (@row_keys_distinct_iff_ids_distinct ordinal_collator env0 (initial heap0) [zeta; acme]).
  - apply reachable_initial.
  - vm_compute; reflexivity.
Defined.

Lemma trigger_shows_active_tenant_witness :
  exists w' tree button,
    @step ordinal_collator (Rendered env0) (initial heap0) = Some w' /\
    output w' = Some tree /\
    elements_by_tag "PopoverTrigger" tree = [button] /\
    textContent button = "Tenant: " +:+ "zeta".
Proof.
  apply (@trigger_shows_active_tenant ordinal_collator env0 (initial heap0) [zeta; acme]
           {| ref := 1%nat; fields := zeta |}).
  - apply reachable_initial.
  - vm_compute; reflexivity.
  - reflexivity.
Defined.

Lemma links_are_rows_then_new_tenant_witness :
  exists w' tree,
    @step ordinal_collator (Rendered env0) (initial heap0) = Some w' /\
    output w' = Some tree /\
    elements_by_tag "Link" tree = tenant_rows tree ++ [new_tenant_link "org"] /\
    length (elements_by_tag "Link" tree) = 3%nat.
Proof.
  apply (@links_are_rows_then_new_tenant ordinal_collator env0 (initial heap0) [zeta; acme]).
  - apply reachable_initial.
  - vm_compute; reflexivity.
Defined.
